(** * save.cpp: the checkpoint sweep driver

    A shallow embedding of [main] of [save.cpp].  The program is a single
    [for] loop which, for every checkpoint index, rewrites a TensorFlow
    style pointer file through a [std::fstream], launches the evaluator
    with [system], and prints the index on [cout].

    The embedding threads an explicit program state through a small
    state monad.  The operating system is a parameter: whether the pointer
    file can be opened, whether what was written to it reaches the disk,
    and what a child process does, are arbitrary functions of the state of
    the machine.  Every observable action of the driver is appended to a
    trace, on which the ordering properties are stated. *)

From Stdlib Require Import ZArith String Ascii List Sorted Lia.
From Stdlib Require Import DecimalString DecimalZ DecimalPos DecimalFacts.
From stdpp Require Import base option gmap strings list.

Local Open Scope Z_scope.

(** ** Text *)

(** The two characters the source writes as escapes. *)
Definition dquote : string := String "034"%char EmptyString.
Definition newline : string := String "010"%char EmptyString.

(** [std::to_string(int)] and [ostream::operator<<(int)] in the default
    locale: the decimal digits, most significant first, with a leading
    minus sign for a negative value. *)
Definition to_string (i : Z) : string :=
  NilZero.string_of_int (Z.to_int i).

(** The reader of that notation, used to say that a rendering denotes a
    number. *)
Definition of_string (s : string) : option Z :=
  Z.of_int <$> NilZero.int_of_string s.

(** The path given to [file.open]. *)
Definition checkpoint : string :=
  "./log/20210110_190115_BreakoutNoFrameskip-v4/weights/checkpoint".

(** The six pieces [main] sends to [file], in order. *)
Definition line1_head : string := "model_checkpoint_path: " +:+ dquote +:+ "episode_".
Definition line1_tail : string := dquote +:+ " " +:+ newline.
Definition line2_head : string := "all_model_checkpoint_paths: " +:+ dquote +:+ "episode_".
Definition line2_tail : string := dquote.

(** What the pointer file holds once the six pieces of iteration [i] have
    reached the disk. *)
Definition pointer_text (i : Z) : string :=
  line1_head +:+ to_string i +:+ line1_tail +:+
  line2_head +:+ to_string i +:+ line2_tail.

(** The two-line text of the specification's pointer writer: the first
    line ends with the newline directly after the closing quote. *)
Definition spec_pointer_text (i : Z) : string :=
  "model_checkpoint_path: " +:+ dquote +:+ "episode_" +:+ to_string i +:+ dquote +:+ newline +:+
  "all_model_checkpoint_paths: " +:+ dquote +:+ "episode_" +:+ to_string i +:+ dquote.

(** [string cmd = "python main.py --env BreakoutNoFrameskip-v4 --save " + to_string(i)] *)
Definition command (i : Z) : string :=
  "python main.py --env BreakoutNoFrameskip-v4 --save " +:+ to_string i.

(** [needle] occurs in [hay] as a contiguous run of characters. *)
Definition occurs_in (needle hay : string) : Prop :=
  exists before after : string, hay = before +:+ needle +:+ after.

(** ** The machine *)

(** The part of the operating system the driver and its children share:
    the files, by path, and everything else ([hidden]: directories,
    permissions, the terminal, the clock...). *)
Record OS {H : Type} := mkOS {
  disk : gmap string string;
  hidden : H
}.
Arguments OS : clear implicits.
Arguments mkOS {H} _ _.

(** What a call of [system] brings about: the termination status of the
    command, the machine as the command left it, and the user interrupts
    of the meantime.  While the caller waits for the command, [system] has
    it ignore the interrupt signal: [interrupted_waiting] says that one
    arrived then.  When the command has terminated the caller's own
    disposition, the handler, is put back: [interrupted] says that one
    arrived after that, before the caller went on. *)
Record child_result {H : Type} := mkResult {
  status : Z;
  os_after : OS H;
  interrupted : bool;
  interrupted_waiting : bool
}.
Arguments child_result : clear implicits.
Arguments mkResult {H} _ _ _ _.

(** The observable actions of the driver, in program order. *)
Inductive event {H : Type} :=
| Signal                                   (* signal(SIGINT, sigint) *)
| Enter (i : Z)                            (* the loop body is entered with this i *)
| Open (p : string) (ok : bool)            (* file.open(p, ios::out | ios::trunc) *)
| Put (s : string)                         (* characters accepted by file's buffer *)
| Flush (p : string) (s : string)          (* the buffer written out to p *)
| Close (ok : bool)                        (* file.close(), and whether it succeeded *)
| Launch (cmd : string) (seen : OS H) (st : Z)  (* system(cmd) ran to completion *)
| Sigint                                   (* the handler ran *)
| Cout (s : string).                       (* characters sent to cout *)
Arguments event : clear implicits.

(** [std::fstream]: the file it is associated with (none when closed),
    the characters in its put area, and whether [fail()] holds. *)
Record fstream := mkStream {
  assoc : option string;
  pending : string;
  failed : bool
}.

(** [fstream file;] *)
Definition fresh : fstream := mkStream None EmptyString false.

(** The state of the running driver: its stream, the globals its signal
    handler works on, the machine, and the trace so far. *)
Record state {H G : Type} := mkState {
  file : fstream;
  globals : G;
  os : OS H;
  trace : list (event H)
}.
Arguments state : clear implicits.
Arguments mkState {H G} _ _ _ _.

Section Driver.

Context {H G : Type}.

(** Whether opening a path for writing succeeds on a given machine. *)
Variable can_open : OS H -> string -> bool.

(** Whether the machine takes the given characters into the file at a
    path (it may not: the disk is full, a quota is reached, the device
    fails). *)
Variable can_write : OS H -> string -> string -> bool.

(** The command interpreter: runs a command line to completion. *)
Variable shell : string -> OS H -> child_result H.

(** The handler named [sigint], which the source registers and does not
    define: any function on the driver's globals. *)
Variable sigint : G -> G.

(** Computations of the driver.  [None] only when the loop runs out of
    the fuel it was given. *)
Definition M (A : Type) : Type := state H G -> option (A * state H G).

Definition ret {A} (a : A) : M A := fun s => Some (a, s).

Definition bind {A B} (m : M A) (k : A -> M B) : M B :=
  fun s => match m s with
           | Some (a, s') => k a s'
           | None => None
           end.

Notation "x <- m ;; k" := (bind m (fun x => k))
  (at level 100, m at next level, k at level 200, right associativity, only parsing).
Notation "m ;; k" := (bind m (fun _ => k))
  (at level 100, k at level 200, right associativity, only parsing).

Definition emit (e : event H) (s : state H G) : state H G :=
  mkState (file s) (globals s) (os s) (trace s ++ [e]).

Definition with_file (f : fstream) (s : state H G) : state H G :=
  mkState f (globals s) (os s) (trace s).

Definition with_disk (d : gmap string string) (s : state H G) : state H G :=
  mkState (file s) (globals s) (mkOS d (hidden (os s))) (trace s).

(** [signal(SIGINT, sigint);] *)
Definition signal_sigint : M unit :=
  fun s => Some (tt, emit Signal s).

(** [file.open(p, ios::out | ios::trunc)].  Opening a stream that is
    already open fails; so does an open the machine refuses.  A
    successful open truncates the file and clears the error state. *)
Definition file_open (p : string) : M unit :=
  fun s =>
    match assoc (file s) with
    | Some _ =>
        Some (tt, emit (Open p false)
                    (with_file (mkStream (assoc (file s)) (pending (file s)) true) s))
    | None =>
        if can_open (os s) p then
          Some (tt, emit (Open p true)
                      (with_disk (<[p := EmptyString]> (disk (os s)))
                         (with_file (mkStream (Some p) EmptyString false) s)))
        else
          Some (tt, emit (Open p false)
                      (with_file (mkStream None (pending (file s)) true) s))
    end.

(** [file << str].  Nothing happens on a stream in the failed state; a
    stream with no file fails; otherwise the characters are buffered. *)
Definition file_put (str : string) : M unit :=
  fun s =>
    if failed (file s) then Some (tt, s)
    else match assoc (file s) with
         | None => Some (tt, with_file (mkStream None (pending (file s)) true) s)
         | Some p =>
             Some (tt, emit (Put str)
                         (with_file (mkStream (Some p) (pending (file s) +:+ str) false) s))
         end.

(** [file << i] *)
Definition file_put_int (i : Z) : M unit := file_put (to_string i).

(** [file.close()].  This is where the put area is written out, behind
    what the file already holds.  If the machine does not take the
    characters the file stays as it is and the stream fails.  Either way
    the association is dropped.  Closing a stream with no file fails. *)
Definition file_close : M unit :=
  fun s =>
    match assoc (file s) with
    | Some p =>
        if can_write (os s) p (pending (file s)) then
          Some (tt, emit (Close true)
                      (emit (Flush p (pending (file s)))
                         (with_disk
                            (<[p := default EmptyString (disk (os s) !! p) +:+ pending (file s)]>
                               (disk (os s)))
                            (with_file (mkStream None EmptyString (failed (file s))) s))))
        else
          Some (tt, emit (Close false)
                      (with_file (mkStream None EmptyString true) s))
    | None =>
        Some (tt, emit (Close false)
                    (with_file (mkStream None (pending (file s)) true) s))
    end.

(** [system(cmd.c_str())]: the caller is suspended until the command has
    terminated, and for that time it ignores the interrupt signal: an
    interrupt that arrives during the wait never reaches the handler, and
    nothing of it is seen in the caller.  One that arrives when the wait
    is over and the handler is back in force has run the handler by the
    time the caller goes on. *)
Definition system (cmd : string) : M Z :=
  fun s =>
    let r := shell cmd (os s) in
    let s1 := emit (Launch cmd (os s) (status r))
                (mkState (file s) (globals s) (os_after r) (trace s)) in
    let s2 := if interrupted r
              then emit Sigint (mkState (file s1) (sigint (globals s1)) (os s1) (trace s1))
              else s1 in
    Some (status r, s2).

(** [cout << str] *)
Definition cout_put (str : string) : M unit :=
  fun s => Some (tt, emit (Cout str) s).

(** [cout << i] and [cout << endl] *)
Definition cout_put_int (i : Z) : M unit := cout_put (to_string i).
Definition cout_endl : M unit := cout_put newline.

(** The body of the loop, statement by statement. *)
Definition body (i : Z) : M unit :=
  file_open checkpoint ;;
  file_put line1_head ;;
  file_put_int i ;;
  file_put line1_tail ;;
  file_put line2_head ;;
  file_put_int i ;;
  file_put line2_tail ;;
  file_close ;;
  let cmd := command i in
  a <- system cmd ;;
  cout_put_int i ;;
  cout_endl.

(** [for (int i = 1000; i <= 47000; i += 1000) body].  Each entry into
    the body is noted in the trace with the value of [i]. *)
Fixpoint for_loop (fuel : nat) (i : Z) : M unit :=
  match fuel with
  | O => fun _ => None
  | S fuel' =>
      if i <=? 47000 then
        (fun s => Some (tt, emit (Enter i) s)) ;;
        body i ;;
        for_loop fuel' (i + 1000)
      else ret tt
  end.

(** [int main()] *)
Definition main (fuel : nat) : M Z :=
  signal_sigint ;;
  for_loop fuel 1000 ;;
  ret 0.

(** The driver started on a machine, with its globals initialised. *)
Definition boot (g : G) (o : OS H) : state H G := mkState fresh g o [].

(** The trace of a finished run (empty if the run did not finish). *)
Definition trace_of (r : option (Z * state H G)) : list (event H) :=
  match r with
  | Some (_, s) => trace s
  | None => []
  end.

(** *** One iteration in closed form *)

(** The machine once the pointer file of iteration [i] is on the disk. *)
Definition written (i : Z) (o : OS H) : OS H :=
  mkOS (<[checkpoint := pointer_text i]> (disk o)) (hidden o).

(** The machine once the pointer file has been opened, and so emptied. *)
Definition truncated (o : OS H) : OS H :=
  mkOS (<[checkpoint := EmptyString]> (disk o)) (hidden o).

(** Whether, on machine [o], the text of [i] gets into the pointer file:
    the open succeeds and the emptied file takes the text. *)
Definition writes_out (i : Z) (o : OS H) : bool :=
  can_open o checkpoint && can_write (truncated o) checkpoint (pointer_text i).

(** The machine on which the child of iteration [i] is started. *)
Definition launch_os (i : Z) (o : OS H) : OS H :=
  if can_open o checkpoint then
    if can_write (truncated o) checkpoint (pointer_text i) then written i o
    else truncated o
  else o.

(** The six writes of one iteration. *)
Definition writes (i : Z) : list (event H) :=
  [Put line1_head; Put (to_string i); Put line1_tail;
   Put line2_head; Put (to_string i); Put line2_tail].

(** The events of one iteration, given whether the open succeeded,
    whether the text was written out, the machine the child saw, its
    status and whether the handler ran. *)
Definition block_of (i : Z) (opened wrote : bool) (seen : OS H) (st : Z) (intr : bool)
  : list (event H) :=
  [Enter i; Open checkpoint opened]
  ++ (if opened then writes i else [])
  ++ (if wrote then [Flush checkpoint (pointer_text i)] else [])
  ++ [Close wrote; Launch (command i) seen st]
  ++ (if intr then [Sigint] else [])
  ++ [Cout (to_string i); Cout newline].

(** The events of iteration [i] started in state [s]. *)
Definition block (i : Z) (s : state H G) : list (event H) :=
  let seen := launch_os i (os s) in
  let r := shell (command i) seen in
  block_of i (can_open (os s) checkpoint) (writes_out i (os s)) seen
    (status r) (interrupted r).

(** The state in which iteration [i], started in [s], ends. *)
Definition after_body (i : Z) (s : state H G) : state H G :=
  let r := shell (command i) (launch_os i (os s)) in
  mkState (mkStream None EmptyString (negb (writes_out i (os s))))
          (if interrupted r then sigint (globals s) else globals s)
          (os_after r)
          (trace s ++ block i s).

(** Iterations over a list of indices: final state, and the events of
    each iteration. *)
Definition run (l : list Z) (s : state H G) : state H G :=
  fold_left (fun s i => after_body i s) l s.

Fixpoint blocks (l : list Z) (s : state H G) : list (list (event H)) :=
  match l with
  | [] => []
  | i :: l' => block i s :: blocks l' (after_body i s)
  end.

(** Between iterations the stream has no file and an empty put area. *)
Definition idle (s : state H G) : Prop :=
  assoc (file s) = None /\ pending (file s) = EmptyString.

(** The values the loop variable still takes when it stands at [i] and
    [k] iterations remain. *)
Fixpoint upfrom (k : nat) (i : Z) : list Z :=
  match k with
  | O => []
  | S k' => i :: upfrom k' (i + 1000)
  end.

End Driver.

(** ** Reading a trace *)

(** The indices 1000, 2000, ..., 47000. *)
Definition sweep : list Z :=
  map (fun k : nat => 1000 + 1000 * Z.of_nat k) (seq 0 47).

(** The values of [i] with which the loop body was entered. *)
Definition entered {H} (tr : list (event H)) : list Z :=
  omap (fun e => match e with Enter i => Some i | _ => None end) tr.

(** The command lines handed to [system]. *)
Definition launched {H} (tr : list (event H)) : list string :=
  omap (fun e => match e with Launch cmd _ _ => Some cmd | _ => None end) tr.

(** The pieces sent to [cout]. *)
Definition couts {H} (tr : list (event H)) : list string :=
  omap (fun e => match e with Cout s => Some s | _ => None end) tr.

(** Everything the driver printed, as one text. *)
Definition printed {H} (tr : list (event H)) : string :=
  fold_right String.append EmptyString (couts tr).

(** The lines a sweep over [l] prints. *)
Definition index_lines (l : list Z) : string :=
  fold_right (fun i rest => to_string i +:+ newline +:+ rest) EmptyString l.

(** The texts written out to files. *)
Definition flushed {H} (tr : list (event H)) : list string :=
  omap (fun e => match e with Flush _ s => Some s | _ => None end) tr.

(** The paths named by the driver's own file actions. *)
Definition touched {H} (tr : list (event H)) : list string :=
  omap (fun e => match e with
                 | Open p _ => Some p
                 | Flush p _ => Some p
                 | _ => None
                 end) tr.

(** A trace with the termination statuses blanked. *)
Definition forget_status {H} (e : event H) : event H :=
  match e with
  | Launch cmd seen _ => Launch cmd seen 0
  | _ => e
  end.

Definition is_launch {H} (e : event H) : bool :=
  match e with Launch _ _ _ => true | _ => false end.

Definition is_enter {H} (e : event H) : bool :=
  match e with Enter _ => true | _ => false end.

Definition is_failed_open {H} (e : event H) : bool :=
  match e with Open _ false => true | _ => false end.

(** Whether a user interrupt arrived while, or just after, the driver
    waited for the command of a launch. *)
Definition is_interrupted_launch {H} (shell : string -> OS H -> child_result H)
    (e : event H) : bool :=
  match e with
  | Launch cmd seen _ =>
      interrupted_waiting (shell cmd seen) || interrupted (shell cmd seen)
  | _ => false
  end.

(** Whether every launch comes after a write-out in its own iteration;
    [done] says whether the iteration at hand has had one. *)
Fixpoint launches_follow_flush {H} (done : bool) (tr : list (event H)) : bool :=
  match tr with
  | [] => true
  | Enter _ :: tr' => launches_follow_flush false tr'
  | Flush _ _ :: tr' => launches_follow_flush true tr'
  | Launch _ _ _ :: tr' => done && launches_follow_flush done tr'
  | _ :: tr' => launches_follow_flush done tr'
  end.

(** The events that follow the first event satisfying [p]. *)
Fixpoint after {H} (p : event H -> bool) (tr : list (event H)) : list (event H) :=
  match tr with
  | [] => []
  | e :: tr' => if p e then tr' else after p tr'
  end.

(** No character of [s] is a double quote. *)
Fixpoint quote_free (s : string) : bool :=
  match s with
  | EmptyString => true
  | String c s' => negb (Ascii.eqb c "034") && quote_free s'
  end.

(** What a run of the driver leaves behind of its own making: its exit
    code, the text it printed, and the machine at the end. *)
Definition outcome {H G} (r : option (Z * state H G)) : option (Z * string * OS H) :=
  match r with
  | Some (code, s) => Some (code, printed (trace s), os s)
  | None => None
  end.

(** A command interpreter that behaves like [shell] except that every
    command terminates with status 0. *)
Definition succeeding {H} (shell : string -> OS H -> child_result H)
  : string -> OS H -> child_result H :=
  fun cmd o => mkResult 0 (os_after (shell cmd o)) (interrupted (shell cmd o))
                (interrupted_waiting (shell cmd o)).

(** ** The specification's readings that the code does not meet *)

(** In every iteration the pointer file has been written out before the
    child is started. *)
Definition written_before_every_launch {H} (tr : list (event H)) : Prop :=
  launches_follow_flush false tr = true.

(** No child is started while the pointer file names an index other than
    the one on the child's command line. *)
Definition pointer_names_child {H} (tr : list (event H)) : Prop :=
  forall (cmd : string) (seen : OS H) (st i j : Z),
    In (Launch cmd seen st) tr -> cmd = command i ->
    disk seen !! checkpoint = Some (pointer_text j) ->
    i = j.

(** Every iteration rewrites the pointer file with the text of its
    index. *)
Definition rewritten_every_iteration {H} (tr : list (event H)) : Prop :=
  flushed tr = map pointer_text (entered tr).

(** The pointer file seen by every child holds the specification's
    two-line text for the index on the child's command line. *)
Definition spec_text_at_launch {H} (tr : list (event H)) : Prop :=
  forall (cmd : string) (seen : OS H) (st i : Z),
    In (Launch cmd seen st) tr -> cmd = command i ->
    disk seen !! checkpoint = Some (spec_pointer_text i).

(** After a failed open of the pointer file no child is launched and no
    further iteration is entered. *)
Definition aborts_on_write_failure {H} (tr : list (event H)) : Prop :=
  existsb is_failed_open tr = true ->
  existsb (fun e => is_launch e || is_enter e) (after is_failed_open tr) = false.

(** A child that terminates with a nonzero status leaves a mark on the
    outcome of the run: the outcome differs from that of the same run
    with all children succeeding. *)
Definition failure_reported {H G}
    (can_open : OS H -> string -> bool) (can_write : OS H -> string -> string -> bool)
    (shell : string -> OS H -> child_result H)
    (sigint : G -> G) (g : G) (o : OS H) : Prop :=
  (exists (cmd : string) (seen : OS H) (st : Z),
      In (Launch cmd seen st) (trace_of (main can_open can_write shell sigint 48 (boot g o)))
      /\ st <> 0) ->
  outcome (main can_open can_write shell sigint 48 (boot g o))
  <> outcome (main can_open can_write (succeeding shell) sigint 48 (boot g o)).

(** Once a user interrupt has arrived, during the run of a child or just
    after it, no further child is launched, and the run ends with a
    nonzero exit code. *)
Definition stops_on_interrupt {H G} (shell : string -> OS H -> child_result H)
    (r : option (Z * state H G)) : Prop :=
  existsb (is_interrupted_launch shell) (trace_of r) = true ->
  existsb is_launch (after (is_interrupted_launch shell) (trace_of r)) = false /\
  exists (code : Z) (s : state H G), r = Some (code, s) /\ code <> 0.

(** ** Concrete machines *)

(** An empty disk, nothing hidden. *)
Definition bare : OS unit := mkOS ∅ tt.

(** A disk on which an earlier run has left a pointer file that names
    checkpoint 5000. *)
Definition stale : OS unit := mkOS (<[checkpoint := pointer_text 5000]> ∅) tt.

(** The pointer file can always be opened; it can never be opened (the
    [weights] directory is missing). *)
Definition always_open : OS unit -> string -> bool := fun _ _ => true.
Definition never_open : OS unit -> string -> bool := fun _ _ => false.

(** The disk takes every write; the disk is full. *)
Definition always_write : OS unit -> string -> string -> bool := fun _ _ _ => true.
Definition never_write : OS unit -> string -> string -> bool := fun _ _ _ => false.

(** An evaluator that succeeds and leaves the machine alone. *)
Definition quiet_shell : string -> OS unit -> child_result unit :=
  fun _ o => mkResult 0 o false false.

(** An evaluator that exits with code 1 on checkpoint 2000; [system]
    reports that as 256. *)
Definition failing_shell : string -> OS unit -> child_result unit :=
  fun cmd o =>
    if String.eqb cmd (command 2000) then mkResult 256 o false false
    else mkResult 0 o false false.

(** An evaluator during whose run on checkpoint 2000 the user presses
    the interrupt key. *)
Definition interrupted_shell : string -> OS unit -> child_result unit :=
  fun cmd o => mkResult 0 o false (String.eqb cmd (command 2000)).

(** An evaluator just after whose run on checkpoint 2000 the user
    presses the interrupt key. *)
Definition interrupted_after_shell : string -> OS unit -> child_result unit :=
  fun cmd o => mkResult 0 o (String.eqb cmd (command 2000)) false.

(** A handler that does nothing. *)
Definition no_handler : unit -> unit := fun g => g.

(** Modelled from the spec: the body of the handler [sigint], which the
    source names and does not define.  The global is the stop flag; the
    handler records a stop request. *)
Definition stop_requested : bool -> bool := fun _ => true.

(** ** Facts about the text *)

Lemma append_cons (x : ascii) (a b : string) :
  String x a +:+ b = String x (a +:+ b).
Proof. reflexivity. Qed.

Lemma append_nil_l (a : string) : EmptyString +:+ a = a.
Proof. reflexivity. Qed.

Lemma append_assoc (a b c : string) : (a +:+ b) +:+ c = a +:+ (b +:+ c).
Proof.
  induction a as [|x a IH]; [reflexivity|].
  now rewrite !append_cons, IH.
Qed.

Lemma append_nil_r (a : string) : a +:+ EmptyString = a.
Proof.
  induction a as [|x a IH]; [reflexivity|].
  now rewrite append_cons, IH.
Qed.

Lemma to_int_proper (i : Z) :
  Z.to_int i <> Decimal.Pos Decimal.Nil /\ Z.to_int i <> Decimal.Neg Decimal.Nil.
Proof.
  destruct i as [|p|p]; simpl; split; try discriminate;
    intros E; injection E as E; now apply Unsigned.to_uint_nonnil in E.
Qed.

Lemma of_to_string (i : Z) : of_string (to_string i) = Some i.
Proof.
  unfold of_string, to_string.
  destruct (to_int_proper i) as [Hp Hn].
  rewrite NilZero.isi by assumption. simpl. now rewrite DecimalZ.of_to.
Qed.

Lemma to_string_inj (i j : Z) : to_string i = to_string j -> i = j.
Proof.
  intros E. apply (f_equal of_string) in E.
  rewrite !of_to_string in E. congruence.
Qed.

Lemma uint_quote_free (d : Decimal.uint) :
  quote_free (NilEmpty.string_of_uint d) = true.
Proof. induction d; simpl; auto. Qed.

Lemma to_string_quote_free (i : Z) : quote_free (to_string i) = true.
Proof.
  unfold to_string, NilZero.string_of_int, NilZero.string_of_uint.
  destruct (Z.to_int i) as [d|d]; destruct d; simpl; auto using uint_quote_free.
Qed.

Lemma to_string_no_padding (i : Z) :
  0 < i -> exists c s, to_string i = String c s /\ c <> "0"%char.
Proof.
  intros Hi. destruct i as [|p|p]; try lia.
  unfold to_string. simpl.
  pose proof (DecimalZ.to_of (Decimal.Pos (Pos.to_uint p))) as Hn.
  replace (Z.of_int (Decimal.Pos (Pos.to_uint p))) with (Z.pos p) in Hn
    by (symmetry; exact (DecimalZ.of_to (Z.pos p))).
  simpl in Hn. injection Hn as Hn.
  pose proof (Unsigned.to_uint_nonzero p) as Hz.
  pose proof (Unsigned.to_uint_nonnil p) as Hnil.
  unfold NilZero.string_of_uint.
  destruct (Pos.to_uint p) as [|d|d|d|d|d|d|d|d|d|d] eqn:Ed;
    try congruence; simpl; try (eexists _, _; split; [reflexivity|discriminate]).
  exfalso. unfold Decimal.unorm in Hn. rewrite nzhead_D0 in Hn.
  destruct (Decimal.nzhead d) eqn:En; try congruence.
  now apply nzhead_nonzero in En.
Qed.

Lemma quote_free_split (a b r1 r2 : string) :
  quote_free a = true -> quote_free b = true ->
  a +:+ dquote +:+ r1 = b +:+ dquote +:+ r2 -> a = b.
Proof.
  revert b. induction a as [|x a IH]; intros [|y b] Ha Hb E.
  - reflexivity.
  - exfalso. rewrite append_nil_l, !append_cons in E. injection E as E _.
    subst y. simpl in Hb. discriminate.
  - exfalso. rewrite append_nil_l, !append_cons in E. injection E as E _.
    subst x. simpl in Ha. discriminate.
  - rewrite !append_cons in E. injection E as -> E.
    simpl in Ha, Hb. apply andb_prop in Ha as [_ Ha]. apply andb_prop in Hb as [_ Hb].
    f_equal. now apply IH.
Qed.

Lemma command_inj (i j : Z) : command i = command j -> i = j.
Proof.
  unfold command. intros E. apply String.app_inj in E. now apply to_string_inj.
Qed.

Lemma pointer_text_inj (i j : Z) : pointer_text i = pointer_text j -> i = j.
Proof.
  unfold pointer_text, line1_head, line1_tail. rewrite !append_assoc. intros E.
  do 3 apply String.app_inj in E.
  apply to_string_inj.
  eapply quote_free_split; eauto using to_string_quote_free.
Qed.

Lemma pointer_text_differs (i : Z) : pointer_text i <> spec_pointer_text i.
Proof.
  unfold pointer_text, spec_pointer_text, line1_head, line1_tail.
  rewrite !append_assoc. intros E.
  do 4 apply String.app_inj in E.
  discriminate E.
Qed.

(** ** The indices *)

Lemma sweep_range (x : Z) :
  In x sweep <-> 1000 <= x <= 47000 /\ x mod 1000 = 0.
Proof.
  unfold sweep. rewrite in_map_iff. split.
  - intros (k & <- & Hk). apply in_seq in Hk. split; [lia|].
    replace (1000 + 1000 * Z.of_nat k) with (0 + (1 + Z.of_nat k) * 1000) by lia.
    now rewrite Z_mod_plus_full.
  - intros [Hx Hm]. exists (Z.to_nat (x / 1000 - 1)).
    pose proof (Z_div_mod_eq_full x 1000) as E. rewrite Hm in E.
    split; [lia | apply in_seq; lia].
Qed.

Lemma sweep_ascending : StronglySorted Z.lt sweep.
Proof.
  unfold sweep. generalize 47%nat. intros n.
  assert (forall n a, StronglySorted Z.lt
            (map (fun k : nat => 1000 + 1000 * Z.of_nat k) (seq a n))) as Hs.
  { clear n. induction n as [|n IH]; intros a; simpl; constructor; [apply IH|].
    apply List.Forall_forall. intros x Hx. apply in_map_iff in Hx as (k & <- & Hk).
    apply in_seq in Hk. lia. }
  apply Hs.
Qed.

Lemma sweep_nodup : List.NoDup sweep.
Proof.
  unfold sweep. apply Finite.Injective_map_NoDup; [|apply List.seq_NoDup].
  intros a b E. lia.
Qed.

(** ** The loop *)

Section Loop.

Context {H G : Type}.
Variable can_open : OS H -> string -> bool.
Variable can_write : OS H -> string -> string -> bool.
Variable shell : string -> OS H -> child_result H.
Variable sigint : G -> G.

Local Abbreviation body := (body can_open can_write shell sigint).
Local Abbreviation for_loop := (for_loop can_open can_write shell sigint).
Local Abbreviation main := (main can_open can_write shell sigint).
Local Abbreviation after_body := (after_body can_open can_write shell sigint).
Local Abbreviation block := (block can_open can_write shell).
Local Abbreviation blocks := (blocks can_open can_write shell sigint).
Local Abbreviation run := (run can_open can_write shell sigint).
Local Abbreviation launch_os := (launch_os can_open can_write).
Local Abbreviation writes_out := (writes_out can_open can_write).

Lemma idle_after_body (i : Z) (s : state H G) : idle (after_body i s).
Proof. split; reflexivity. Qed.

Lemma body_spec (i : Z) (s : state H G) :
  idle s ->
  body i (emit (Enter i) s) = Some (tt, after_body i s).
Proof.
  intros [Ha Hp]. destruct s as [[a p f] g o tr]. simpl in Ha, Hp. subst a p.
  unfold body, after_body, block, block_of, launch_os, writes_out, written, truncated,
    bind, file_open, file_put_int, file_put, file_close, system, cout_put_int,
    cout_endl, cout_put, emit, with_file, with_disk, pointer_text, writes.
  simpl. destruct (can_open o checkpoint) eqn:Hopen; simpl.
  - rewrite !append_nil_l, !append_assoc.
    destruct (can_write _ checkpoint _) eqn:Hwrite; simpl.
    + rewrite lookup_insert_eq, insert_insert_eq. simpl. rewrite !append_nil_l.
      destruct (interrupted _); simpl; rewrite <- !app_assoc; simpl; reflexivity.
    + destruct (interrupted _); simpl; rewrite <- !app_assoc; simpl; reflexivity.
  - destruct (interrupted _); simpl; rewrite <- !app_assoc; simpl; reflexivity.
Qed.

Lemma for_loop_spec (k : nat) :
  forall (i : Z) (fuel : nat) (s : state H G),
    idle s ->
    i = 48000 - 1000 * Z.of_nat k ->
    for_loop (S k + fuel) i s = Some (tt, run (upfrom k i) s).
Proof.
  induction k as [|k IH]; intros i fuel s Hs Hi.
  - simpl. replace (i <=? 47000) with false by (symmetry; apply Z.leb_gt; lia).
    reflexivity.
  - change (for_loop (S (S k) + fuel) i s)
      with ((if i <=? 47000
             then bind (fun s => Some (tt, emit (Enter i) s))
                    (fun _ => bind (body i) (fun _ => for_loop (S k + fuel) (i + 1000)))
             else ret tt) s).
    replace (i <=? 47000) with true by (symmetry; apply Z.leb_le; lia).
    unfold bind at 1 2. rewrite body_spec by assumption.
    rewrite IH; [reflexivity | apply idle_after_body | lia].
Qed.

Lemma upfrom_sweep : upfrom 47 1000 = sweep.
Proof. reflexivity. Qed.

Lemma main_spec (fuel : nat) (g : G) (o : OS H) :
  main (48 + fuel) (boot g o) = Some (0, run sweep (emit Signal (boot g o))).
Proof.
  unfold main, bind, signal_sigint.
  rewrite (for_loop_spec 47 1000 fuel); [now rewrite upfrom_sweep | | reflexivity].
  split; reflexivity.
Qed.

Lemma trace_run (l : list Z) :
  forall s : state H G, trace (run l s) = trace s ++ concat (blocks l s).
Proof.
  induction l as [|i l IH]; intros s; simpl.
  - now rewrite app_nil_r.
  - rewrite IH. simpl. now rewrite <- app_assoc.
Qed.

(** A property of single iterations holds of every iteration of a run. *)
Lemma blocks_Forall2 (P : Z -> list (event H) -> Prop) :
  (forall (i : Z) (s : state H G), P i (block i s)) ->
  forall l s, Forall2 P l (blocks l s).
Proof.
  intros HP l. induction l as [|i l IH]; intros s; simpl; constructor; auto.
Qed.

Lemma omap_blocks {B : Type} (f : event H -> option B) (h : Z -> list B) :
  (forall (i : Z) (s : state H G), omap f (block i s) = h i) ->
  forall (l : list Z) (s : state H G),
    omap f (concat (blocks l s)) = flat_map h l.
Proof.
  intros Hf l. induction l as [|i l IH]; intros s; [reflexivity|].
  change (blocks (i :: l) s) with (block i s :: blocks l (after_body i s)).
  rewrite concat_cons, omap_app, Hf, IH. reflexivity.
Qed.

Lemma entered_block (i : Z) (s : state H G) : entered (block i s) = [i].
Proof.
  unfold block, block_of, writes_out, entered.
  destruct (can_open _ _), (can_write _ _ _), (interrupted _); reflexivity.
Qed.

Lemma launched_block (i : Z) (s : state H G) : launched (block i s) = [command i].
Proof.
  unfold block, block_of, writes_out, launched.
  destruct (can_open _ _), (can_write _ _ _), (interrupted _); reflexivity.
Qed.

Lemma couts_block (i : Z) (s : state H G) :
  couts (block i s) = [to_string i; newline].
Proof.
  unfold block, block_of, writes_out, couts.
  destruct (can_open _ _), (can_write _ _ _), (interrupted _); reflexivity.
Qed.

Lemma touched_block (i : Z) (s : state H G) :
  Forall (fun q => q = checkpoint) (touched (block i s)).
Proof.
  unfold block, block_of, writes_out, touched.
  destruct (can_open _ _), (can_write _ _ _), (interrupted _);
    simpl; repeat constructor.
Qed.

Lemma flat_map_singleton {A B : Type} (f : A -> B) (l : list A) :
  flat_map (fun x => [f x]) l = map f l.
Proof. induction l as [|x l IH]; simpl; [reflexivity | now rewrite IH]. Qed.

Lemma omap_main {B : Type} (f : event H -> option B) (h : Z -> list B)
    (g : G) (o : OS H) :
  f Signal = None ->
  (forall (i : Z) (s : state H G), omap f (block i s) = h i) ->
  omap f (trace (run sweep (emit Signal (boot g o)))) = flat_map h sweep.
Proof.
  intros Hs Hf. rewrite trace_run.
  change (trace (emit Signal (boot g o))) with [@Signal H].
  rewrite omap_app, (omap_blocks f h) by assumption.
  simpl. now rewrite Hs.
Qed.

Lemma entered_main (g : G) (o : OS H) :
  entered (trace (run sweep (emit Signal (boot g o)))) = sweep.
Proof.
  unfold entered. rewrite (omap_main _ (fun i => [i])); [ | reflexivity | exact entered_block ].
  rewrite (flat_map_singleton (fun i : Z => i)). apply map_id.
Qed.

Lemma launched_main (g : G) (o : OS H) :
  launched (trace (run sweep (emit Signal (boot g o)))) = map command sweep.
Proof.
  unfold launched.
  rewrite (omap_main _ (fun i => [command i])); [ | reflexivity | exact launched_block ].
  apply flat_map_singleton.
Qed.

Lemma couts_main (g : G) (o : OS H) :
  couts (trace (run sweep (emit Signal (boot g o))))
  = flat_map (fun i => [to_string i; newline]) sweep.
Proof.
  unfold couts.
  rewrite (omap_main _ (fun i => [to_string i; newline])); [ | reflexivity | exact couts_block ].
  reflexivity.
Qed.


Lemma for_loop_step (fuel : nat) (i : Z) (s : state H G) :
  idle s -> i <= 47000 ->
  for_loop (S fuel) i s = for_loop fuel (i + 1000) (after_body i s).
Proof.
  intros Hs Hi.
  change (for_loop (S fuel) i s)
    with ((if i <=? 47000
           then bind (fun s => Some (tt, emit (Enter i) s))
                  (fun _ => bind (body i) (fun _ => for_loop fuel (i + 1000)))
           else ret tt) s).
  replace (i <=? 47000) with true by (symmetry; apply Z.leb_le; lia).
  unfold bind at 1 2. now rewrite body_spec.
Qed.

(** The shape of the events of any iteration, and what the child of the
    iteration finds in the pointer file when the open succeeded. *)
Lemma block_shape (i : Z) (s : state H G) :
  exists (opened wrote : bool) (seen : OS H) (st : Z) (intr : bool),
    block i s = block_of i opened wrote seen st intr /\
    (opened = false -> wrote = false) /\
    (wrote = true -> disk seen !! checkpoint = Some (pointer_text i)) /\
    (opened = true -> wrote = false -> disk seen !! checkpoint = Some EmptyString).
Proof.
  unfold block, launch_os, writes_out.
  destruct (can_open (os s) checkpoint);
    destruct (can_write (truncated (os s)) checkpoint (pointer_text i));
    eexists _, _, _, _, _; (split; [reflexivity|]); simpl;
    repeat split; try discriminate; intros; unfold written, truncated; simpl;
    apply lookup_insert_eq.
Qed.

Lemma printed_lines (l : list Z) :
  fold_right String.append EmptyString (flat_map (fun i => [to_string i; newline]) l)
  = index_lines l.
Proof.
  induction l as [|i l IH]; [reflexivity|].
  change (to_string i +:+ newline
          +:+ fold_right String.append EmptyString
                (flat_map (fun i => [to_string i; newline]) l)
          = to_string i +:+ newline +:+ index_lines l).
  now rewrite IH.
Qed.

Lemma touched_blocks (l : list Z) :
  forall s : state H G,
    Forall (fun q => q = checkpoint) (omap (fun e : event H =>
       match e with
       | Open p _ => Some p
       | Flush p _ => Some p
       | _ => None
       end) (concat (blocks l s))).
Proof.
  induction l as [|i l IH]; intros s; [constructor|].
  change (blocks (i :: l) s) with (block i s :: blocks l (after_body i s)).
  rewrite concat_cons, omap_app. apply Forall_app. split; [apply touched_block | apply IH].
Qed.

(** A file other than the pointer file that no child modifies is not
    modified by a run. *)
Lemma disk_frame_run (p : string) :
  p <> checkpoint ->
  (forall (cmd : string) (o' : OS H), disk (os_after (shell cmd o')) !! p = disk o' !! p) ->
  forall (l : list Z) (s : state H G),
    disk (os (run l s)) !! p = disk (os s) !! p.
Proof.
  intros Hp Hframe l. induction l as [|i l IH]; intros s; [reflexivity|].
  change (run (i :: l) s) with (run l (after_body i s)).
  rewrite IH. unfold after_body. simpl. rewrite Hframe.
  unfold launch_os, written, truncated.
  destruct (can_open (os s) checkpoint); [|reflexivity].
  destruct (can_write _ checkpoint _); simpl; now rewrite lookup_insert_ne.
Qed.

(** A property of single iterations that rests on an invariant of the
    state holds of every iteration of a run. *)
Lemma blocks_Forall2_inv (Inv : state H G -> Prop) (P : Z -> list (event H) -> Prop) :
  (forall (i : Z) (s : state H G), Inv s -> Inv (after_body i s)) ->
  (forall (i : Z) (s : state H G), Inv s -> P i (block i s)) ->
  forall (l : list Z) (s : state H G), Inv s -> Forall2 P l (blocks l s).
Proof.
  intros Hstep HP l. induction l as [|i l IH]; intros s Hs; simpl; constructor; auto.
Qed.

(** The same, for a property that holds of the indices of the list. *)
Lemma blocks_Forall2_in (P : Z -> list (event H) -> Prop) (l : list Z) :
  (forall (i : Z) (s : state H G), In i l -> P i (block i s)) ->
  forall s : state H G, Forall2 P l (blocks l s).
Proof.
  induction l as [|i l IH]; intros HP s; simpl; constructor.
  - apply HP. now left.
  - apply IH. intros j s' Hj. apply HP. now right.
Qed.

Lemma run_inv (Inv : state H G -> Prop) :
  (forall (i : Z) (s : state H G), Inv s -> Inv (after_body i s)) ->
  forall (l : list Z) (s : state H G), Inv s -> Inv (run l s).
Proof.
  intros Hstep l. induction l as [|i l IH]; intros s Hs; [assumption|].
  change (run (i :: l) s) with (run l (after_body i s)). auto.
Qed.

(** *** The claims *)

(** C1 (as amended).  In an iteration in which the open of the pointer
    file succeeds and the disk takes the text, the events are, in this
    order: the truncating open, the six writes, the write-out of exactly
    the text of that index, the close, and only then the child of that
    index, started on the machine that holds the whole text in the file.
    The child has terminated, with the status the evaluator gives on that
    machine, before the index is printed; and the next iteration, with its
    open, starts from the machine as the child left it. *)
Theorem pointer_written_then_child_then_next (fuel : nat) (i : Z) (s : state H G) :
  idle s -> i <= 47000 ->
  can_open (os s) checkpoint = true ->
  can_write (truncated (os s)) checkpoint (pointer_text i) = true ->
  exists s',
    for_loop (S fuel) i s = for_loop fuel (i + 1000) s' /\
    trace s' = trace s
               ++ [Enter i; Open checkpoint true]
               ++ writes i
               ++ [Flush checkpoint (pointer_text i); Close true;
                   Launch (command i) (written i (os s))
                     (status (shell (command i) (written i (os s))))]
               ++ (if interrupted (shell (command i) (written i (os s)))
                   then [Sigint] else [])
               ++ [Cout (to_string i); Cout newline] /\
    disk (written i (os s)) !! checkpoint = Some (pointer_text i) /\
    os s' = os_after (shell (command i) (written i (os s))) /\
    failed (file s') = false /\
    idle s'.
Proof.
  intros Hs Hi Hopen Hwrite. exists (after_body i s).
  split; [now apply for_loop_step|].
  unfold after_body, block, block_of, launch_os, writes_out.
  rewrite Hopen, Hwrite. simpl.
  split; [reflexivity|]. split; [apply lookup_insert_eq|].
  split; [reflexivity|]. split; [reflexivity|]. split; reflexivity.
Qed.

(** C2 (as amended).  On every machine, each iteration of the sweep shows
    in its events whether the open succeeded and whether the text was
    written out; whenever it was written out, the child of that index [i]
    is started on a machine whose pointer file holds exactly: the first
    line with [episode_i] in double quotes, a space, a newline, then the
    second line with [episode_i] in double quotes and nothing after it.
    The digits of [i] read back as [i] and do not start with a zero. *)
Theorem pointer_file_bytes_at_launch (fuel : nat) (g : G) (o : OS H) :
  exists final bs,
    main (48 + fuel) (boot g o) = Some (0, final) /\
    trace final = Signal :: concat bs /\
    Forall2
      (fun (i : Z) (b : list (event H)) =>
         exists (opened wrote : bool) (seen : OS H) (st : Z) (intr : bool),
           b = [Enter i; Open checkpoint opened]
               ++ (if opened then writes i else [])
               ++ (if wrote then [Flush checkpoint (pointer_text i)] else [])
               ++ [Close wrote; Launch (command i) seen st]
               ++ (if intr then [Sigint] else [])
               ++ [Cout (to_string i); Cout newline] /\
           (wrote = true ->
            disk seen !! checkpoint
            = Some ("model_checkpoint_path: " +:+ dquote +:+ "episode_" +:+ to_string i
                    +:+ dquote +:+ " " +:+ newline
                    +:+ "all_model_checkpoint_paths: " +:+ dquote +:+ "episode_"
                    +:+ to_string i +:+ dquote)) /\
           of_string (to_string i) = Some i /\
           exists c rest, to_string i = String c rest /\ c <> "0"%char)
      sweep bs.
Proof.
  exists (run sweep (emit Signal (boot g o))), (blocks sweep (emit Signal (boot g o))).
  split; [apply main_spec|]. split; [now rewrite trace_run|].
  apply blocks_Forall2_in. intros i s Hi.
  destruct (block_shape i s) as (opened & wrote & seen & st & intr & -> & _ & Hw & _).
  exists opened, wrote, seen, st, intr. split; [reflexivity|]. split; [|split].
  - intros Hwr. rewrite (Hw Hwr).
    unfold pointer_text, line1_head, line1_tail, line2_head, line2_tail.
    now rewrite !append_assoc.
  - apply of_to_string.
  - apply to_string_no_padding. apply sweep_range in Hi. lia.
Qed.

(** C3.  [main] enters the loop body with exactly the values 1000, 2000,
    ..., 47000: the multiples of 1000 from 1000 up to 47000, each once, in
    strictly ascending order. *)
Theorem sweep_visits_default_indices (fuel : nat) (g : G) (o : OS H) :
  exists final,
    main (48 + fuel) (boot g o) = Some (0, final) /\
    entered (trace final) = sweep /\
    (forall x, In x sweep <-> 1000 <= x <= 47000 /\ x mod 1000 = 0) /\
    List.NoDup sweep /\
    StronglySorted Z.lt sweep /\
    length sweep = 47%nat.
Proof.
  eexists. split; [apply main_spec|].
  split; [apply entered_main|].
  split; [exact sweep_range|].
  split; [exact sweep_nodup|].
  split; [exact sweep_ascending | reflexivity].
Qed.

(** C4 (as amended).  On every machine, in each iteration the text
    written out to the pointer file, when one is written out, and the
    command line of the child launched next carry the same index [i].
    Whenever the text of an iteration was written out, its child is
    started while the pointer file holds the text of [i]; the command line
    and the text each name one index only, so there the two cannot
    disagree. *)
Theorem child_index_agrees_with_pointer_file (fuel : nat) (g : G) (o : OS H) :
  exists final bs,
    main (48 + fuel) (boot g o) = Some (0, final) /\
    trace final = Signal :: concat bs /\
    Forall2
      (fun (i : Z) (b : list (event H)) =>
         exists (opened wrote : bool) (seen : OS H) (st : Z) (intr : bool),
           b = [Enter i; Open checkpoint opened]
               ++ (if opened then writes i else [])
               ++ (if wrote then [Flush checkpoint (pointer_text i)] else [])
               ++ [Close wrote; Launch (command i) seen st]
               ++ (if intr then [Sigint] else [])
               ++ [Cout (to_string i); Cout newline] /\
           (wrote = true ->
            disk seen !! checkpoint = Some (pointer_text i) /\
            forall j k : Z,
              command i = command j ->
              disk seen !! checkpoint = Some (pointer_text k) ->
              j = i /\ k = i))
      sweep bs.
Proof.
  exists (run sweep (emit Signal (boot g o))), (blocks sweep (emit Signal (boot g o))).
  split; [apply main_spec|]. split; [now rewrite trace_run|].
  apply blocks_Forall2. intros i s.
  destruct (block_shape i s) as (opened & wrote & seen & st & intr & -> & _ & Hw & _).
  exists opened, wrote, seen, st, intr. split; [reflexivity|].
  intros Hwr. split; [now apply Hw|].
  intros j k Hj Hk. split.
  - symmetry. now apply command_inj.
  - rewrite (Hw Hwr) in Hk. symmetry. apply pointer_text_inj.
    exact (f_equal (default EmptyString) Hk).
Qed.

(** C5.  The command lines [main] hands to [system] are, in order, those
    of the indices of the sweep; the command line of [i] is the evaluator
    followed by [--env BreakoutNoFrameskip-v4] and by [--save] and the
    decimal digits of [i], which read back as [i]. *)
Theorem child_command_line (fuel : nat) (g : G) (o : OS H) :
  exists final,
    main (48 + fuel) (boot g o) = Some (0, final) /\
    launched (trace final) = map command sweep /\
    forall i : Z,
      command i = "python main.py" +:+ " --env BreakoutNoFrameskip-v4"
                  +:+ " --save " +:+ to_string i /\
      occurs_in "--env BreakoutNoFrameskip-v4" (command i) /\
      occurs_in ("--save " +:+ to_string i) (command i) /\
      of_string (to_string i) = Some i.
Proof.
  eexists. split; [apply main_spec|]. split; [apply launched_main|].
  intros i. split; [reflexivity|]. split; [|split].
  - exists "python main.py ", (" --save " +:+ to_string i). reflexivity.
  - exists "python main.py --env BreakoutNoFrameskip-v4 ", EmptyString.
    rewrite append_nil_r. reflexivity.
  - apply of_to_string.
Qed.

(** C6 (as amended).  When the open of the pointer file fails in an
    iteration, nothing is written and nothing is reported: the child of
    that index is launched all the same, on the machine as the iteration
    found it, the index is printed, and the loop goes on with the next
    index. *)
Theorem failed_open_still_launches (fuel : nat) (i : Z) (s : state H G) :
  idle s -> i <= 47000 -> can_open (os s) checkpoint = false ->
  exists s',
    for_loop (S fuel) i s = for_loop fuel (i + 1000) s' /\
    trace s' = trace s
               ++ [Enter i; Open checkpoint false; Close false;
                   Launch (command i) (os s) (status (shell (command i) (os s)))]
               ++ (if interrupted (shell (command i) (os s)) then [Sigint] else [])
               ++ [Cout (to_string i); Cout newline] /\
    os s' = os_after (shell (command i) (os s)) /\
    idle s'.
Proof.
  intros Hs Hi Hopen. exists (after_body i s). split; [|split; [|split]].
  - now apply for_loop_step.
  - unfold after_body, block, block_of, launch_os, writes_out. rewrite Hopen. reflexivity.
  - unfold after_body, launch_os. rewrite Hopen. reflexivity.
  - apply idle_after_body.
Qed.


(** C10 (as amended).  The driver opens and writes the file [checkpoint]
    and no other.  Every iteration starts by opening that path for
    writing with truncation.  When the open succeeds the file is emptied,
    and holds the text of the index when the child starts if the text was
    written out, nothing if it was not; when the open fails nothing is
    written.  Every open and every write-out in the trace names that
    path, and a file at any other path that the children leave alone has
    at the end the contents it had at the start. *)
Theorem driver_writes_only_checkpoint
    (fuel : nat) (g : G) (o : OS H) (p : string) :
  p <> checkpoint ->
  (forall (cmd : string) (o' : OS H), disk (os_after (shell cmd o')) !! p = disk o' !! p) ->
  exists final bs,
    main (48 + fuel) (boot g o) = Some (0, final) /\
    trace final = Signal :: concat bs /\
    Forall2
      (fun (i : Z) (b : list (event H)) =>
         exists (opened wrote : bool) (seen : OS H) (st : Z) (intr : bool),
           b = [Enter i; Open checkpoint opened]
               ++ (if opened then writes i else [])
               ++ (if wrote then [Flush checkpoint (pointer_text i)] else [])
               ++ [Close wrote; Launch (command i) seen st]
               ++ (if intr then [Sigint] else [])
               ++ [Cout (to_string i); Cout newline] /\
           (opened = false -> wrote = false) /\
           (opened = true ->
            disk seen !! checkpoint
            = Some (if wrote then pointer_text i else EmptyString)))
      sweep bs /\
    Forall (fun q => q = checkpoint) (touched (trace final)) /\
    disk (os final) !! p = disk o !! p.
Proof.
  intros Hp Hframe.
  exists (run sweep (emit Signal (boot g o))), (blocks sweep (emit Signal (boot g o))).
  split; [apply main_spec|]. split; [now rewrite trace_run|]. split; [|split].
  - apply blocks_Forall2. intros i s.
    destruct (block_shape i s) as (opened & wrote & seen & st & intr & -> & Hno & Hw & He).
    exists opened, wrote, seen, st, intr. split; [reflexivity|]. split; [exact Hno|].
    intros Hop. destruct wrote; auto.
  - rewrite trace_run. unfold touched. rewrite omap_app. apply Forall_app. split.
    + constructor.
    + apply touched_blocks.
  - now rewrite disk_frame_run.
Qed.

(** *** Further properties of the loop *)

(** X4.  On a machine where the pointer file can be opened and the disk
    takes what is written to it, and where the children leave the pointer
    file alone, the pointer file names the last index, 47000, when [main]
    returns. *)
Theorem pointer_file_after_sweep (fuel : nat) (g : G) (o : OS H) :
  (forall o' : OS H, can_open o' checkpoint = true) ->
  (forall (o' : OS H) (text : string), can_write o' checkpoint text = true) ->
  (forall (cmd : string) (o' : OS H),
      disk (os_after (shell cmd o')) !! checkpoint = disk o' !! checkpoint) ->
  exists final,
    main (48 + fuel) (boot g o) = Some (0, final) /\
    disk (os final) !! checkpoint = Some (pointer_text 47000).
Proof.
  intros Hopen Hwrite Hframe. eexists. split; [apply main_spec|].
  assert (forall (l : list Z) (s : state H G),
             l <> [] ->
             disk (os (run l s)) !! checkpoint = Some (pointer_text (List.last l 0))) as Hlast.
  { intros l. induction l as [|i l IH]; intros s Hl; [congruence|].
    change (run (i :: l) s) with (run l (after_body i s)).
    destruct l as [|j l].
    - unfold after_body, launch_os, written. simpl.
      rewrite Hframe, Hopen, Hwrite. simpl. apply lookup_insert_eq.
    - rewrite IH by discriminate. reflexivity. }
  rewrite Hlast by discriminate. reflexivity.
Qed.

(** X5.  On a machine where the pointer file can never be opened, the
    driver changes nothing on the disk: if the children leave the pointer
    file alone, each of the 47 children starts with the pointer file as
    it was before the sweep, and so it is at the end. *)
Theorem unopenable_pointer_is_never_updated (fuel : nat) (g : G) (o : OS H) :
  (forall o' : OS H, can_open o' checkpoint = false) ->
  (forall (cmd : string) (o' : OS H),
      disk (os_after (shell cmd o')) !! checkpoint = disk o' !! checkpoint) ->
  exists final bs,
    main (48 + fuel) (boot g o) = Some (0, final) /\
    trace final = Signal :: concat bs /\
    Forall2
      (fun (i : Z) (b : list (event H)) =>
         exists (seen : OS H) (st : Z) (intr : bool),
           b = [Enter i; Open checkpoint false; Close false; Launch (command i) seen st]
               ++ (if intr then [Sigint] else [])
               ++ [Cout (to_string i); Cout newline] /\
           disk seen !! checkpoint = disk o !! checkpoint)
      sweep bs /\
    disk (os final) !! checkpoint = disk o !! checkpoint.
Proof.
  intros Hopen Hframe.
  set (Inv := fun s : state H G => disk (os s) !! checkpoint = disk o !! checkpoint).
  assert (forall (i : Z) (s : state H G), Inv s -> Inv (after_body i s)) as Hstep.
  { intros i s Hs. unfold Inv, after_body, launch_os in *. simpl.
    now rewrite Hframe, Hopen. }
  exists (run sweep (emit Signal (boot g o))), (blocks sweep (emit Signal (boot g o))).
  split; [apply main_spec|]. split; [now rewrite trace_run|]. split.
  - apply (blocks_Forall2_inv Inv); [exact Hstep| |reflexivity].
    intros i s Hs. unfold block, block_of, launch_os, writes_out. rewrite Hopen.
    eexists _, _, _. split; [reflexivity|exact Hs].
  - apply (run_inv Inv); [exact Hstep|reflexivity].
Qed.

(** X7.  When the open of the pointer file succeeds and the disk then
    refuses the text, the driver does not notice either: the file is left
    empty, nothing is reported, the child of that index is launched on
    that machine, the index is printed, and the loop goes on with the
    next index, the stream being closed and in its error state. *)
Theorem failed_write_still_launches (fuel : nat) (i : Z) (s : state H G) :
  idle s -> i <= 47000 ->
  can_open (os s) checkpoint = true ->
  can_write (truncated (os s)) checkpoint (pointer_text i) = false ->
  exists s',
    for_loop (S fuel) i s = for_loop fuel (i + 1000) s' /\
    trace s' = trace s
               ++ [Enter i; Open checkpoint true]
               ++ writes i
               ++ [Close false;
                   Launch (command i) (truncated (os s))
                     (status (shell (command i) (truncated (os s))))]
               ++ (if interrupted (shell (command i) (truncated (os s)))
                   then [Sigint] else [])
               ++ [Cout (to_string i); Cout newline] /\
    disk (truncated (os s)) !! checkpoint = Some EmptyString /\
    os s' = os_after (shell (command i) (truncated (os s))) /\
    failed (file s') = true /\
    idle s'.
Proof.
  intros Hs Hi Hopen Hwrite. exists (after_body i s).
  split; [now apply for_loop_step|].
  unfold after_body, block, block_of, launch_os, writes_out.
  rewrite Hopen, Hwrite. simpl.
  split; [reflexivity|]. split; [apply lookup_insert_eq|].
  split; [reflexivity|]. split; [reflexivity|]. split; reflexivity.
Qed.

End Loop.

(** ** Two runs side by side *)

Lemma forget_block {H} (i : Z) (opened wrote intr : bool) (seen : OS H) (st : Z) :
  map forget_status (block_of i opened wrote seen st intr)
  = block_of i opened wrote seen 0 intr.
Proof. destruct opened, wrote, intr; reflexivity. Qed.

(** Two command interpreters that differ in the statuses they report
    only drive the loop through the same states. *)
Lemma run_status_blind {H G} (can_open : OS H -> string -> bool)
    (can_write : OS H -> string -> string -> bool)
    (sh1 sh2 : string -> OS H -> child_result H) (sigint : G -> G) :
  (forall (cmd : string) (o' : OS H),
      os_after (sh1 cmd o') = os_after (sh2 cmd o') /\
      interrupted (sh1 cmd o') = interrupted (sh2 cmd o')) ->
  forall (l : list Z) (s1 s2 : state H G),
    globals s1 = globals s2 -> os s1 = os s2 ->
    map forget_status (trace s1) = map forget_status (trace s2) ->
    globals (run can_open can_write sh1 sigint l s1)
    = globals (run can_open can_write sh2 sigint l s2) /\
    os (run can_open can_write sh1 sigint l s1)
    = os (run can_open can_write sh2 sigint l s2) /\
    map forget_status (trace (run can_open can_write sh1 sigint l s1))
    = map forget_status (trace (run can_open can_write sh2 sigint l s2)).
Proof.
  intros Hsh l. induction l as [|i l IH]; intros s1 s2 Hg Ho Ht; [auto|].
  change (run can_open can_write sh1 sigint (i :: l) s1)
    with (run can_open can_write sh1 sigint l (after_body can_open can_write sh1 sigint i s1)).
  change (run can_open can_write sh2 sigint (i :: l) s2)
    with (run can_open can_write sh2 sigint l (after_body can_open can_write sh2 sigint i s2)).
  destruct (Hsh (command i) (launch_os can_open can_write i (os s2))) as [Hos Hint].
  apply IH; unfold after_body, block; simpl; rewrite Ho.
  - now rewrite Hint, Hg.
  - assumption.
  - rewrite !map_app, !forget_block, Ht, Hint. reflexivity.
Qed.

(** Neither the handler, nor the globals it works on, nor the interrupts
    that arrive while the driver waits for a child have any influence on
    the machine or on the trace. *)
Lemma run_handler_blind {H G1 G2} (can_open : OS H -> string -> bool)
    (can_write : OS H -> string -> string -> bool)
    (sh1 sh2 : string -> OS H -> child_result H) (sg1 : G1 -> G1) (sg2 : G2 -> G2) :
  (forall (cmd : string) (o' : OS H),
      status (sh1 cmd o') = status (sh2 cmd o') /\
      os_after (sh1 cmd o') = os_after (sh2 cmd o') /\
      interrupted (sh1 cmd o') = interrupted (sh2 cmd o')) ->
  forall (l : list Z) (s1 : state H G1) (s2 : state H G2),
    os s1 = os s2 -> trace s1 = trace s2 ->
    os (run can_open can_write sh1 sg1 l s1) = os (run can_open can_write sh2 sg2 l s2) /\
    trace (run can_open can_write sh1 sg1 l s1)
    = trace (run can_open can_write sh2 sg2 l s2).
Proof.
  intros Hsh l. induction l as [|i l IH]; intros s1 s2 Ho Ht; [auto|].
  change (run can_open can_write sh1 sg1 (i :: l) s1)
    with (run can_open can_write sh1 sg1 l (after_body can_open can_write sh1 sg1 i s1)).
  change (run can_open can_write sh2 sg2 (i :: l) s2)
    with (run can_open can_write sh2 sg2 l (after_body can_open can_write sh2 sg2 i s2)).
  destruct (Hsh (command i) (launch_os can_open can_write i (os s2))) as (Hst & Hos & Hint).
  apply IH; unfold after_body, block; simpl; rewrite Ho; [assumption|].
  now rewrite Ht, Hst, Hint.
Qed.

(** C7 (as amended).  [system] hands the status of the command back to
    [main], which stores it and never reads it: two evaluators that differ
    in their statuses only take the driver through the same run, status
    apart.  Whatever the statuses, every index of the sweep gets its
    child, the driver prints the index lines and nothing else, and [main]
    returns 0. *)
Theorem child_status_is_dropped {H G} (can_open : OS H -> string -> bool)
    (can_write : OS H -> string -> string -> bool)
    (sh1 sh2 : string -> OS H -> child_result H) (sigint : G -> G)
    (fuel : nat) (g : G) (o : OS H) :
  (forall (cmd : string) (o' : OS H),
      os_after (sh1 cmd o') = os_after (sh2 cmd o') /\
      interrupted (sh1 cmd o') = interrupted (sh2 cmd o')) ->
  (forall (cmd : string) (s : state H G),
      fst <$> system sh1 sigint cmd s = Some (status (sh1 cmd (os s)))) /\
  exists f1 f2,
    main can_open can_write sh1 sigint (48 + fuel) (boot g o) = Some (0, f1) /\
    main can_open can_write sh2 sigint (48 + fuel) (boot g o) = Some (0, f2) /\
    map forget_status (trace f1) = map forget_status (trace f2) /\
    os f1 = os f2 /\
    globals f1 = globals f2 /\
    launched (trace f1) = map command sweep /\
    printed (trace f1) = index_lines sweep.
Proof.
  intros Hsh. split; [reflexivity|].
  eexists _, _. split; [apply main_spec|]. split; [apply main_spec|].
  destruct (run_status_blind can_open can_write sh1 sh2 sigint Hsh sweep
              (emit Signal (boot g o)) (emit Signal (boot g o))
              eq_refl eq_refl eq_refl) as (Hg & Ho & Ht).
  repeat (split; [assumption|]). split; [apply launched_main|].
  unfold printed. rewrite couts_main. apply printed_lines.
Qed.

(** C8 (as amended).  [main] registers [sigint] before the loop and never
    looks at anything the handler could have recorded.  An interrupt that
    arrives while the driver waits for a child does not reach the
    handler; one that arrives between two waits runs it.  The run is the
    same for any two handlers, on any globals, and whether or not
    interrupts arrive during the waits: every index of the sweep gets its
    child and [main] returns 0. *)
Theorem handler_never_consulted {H G1 G2} (can_open : OS H -> string -> bool)
    (can_write : OS H -> string -> string -> bool)
    (sh1 sh2 : string -> OS H -> child_result H) (sg1 : G1 -> G1) (sg2 : G2 -> G2)
    (fuel : nat) (g1 : G1) (g2 : G2) (o : OS H) :
  (forall (cmd : string) (o' : OS H),
      status (sh1 cmd o') = status (sh2 cmd o') /\
      os_after (sh1 cmd o') = os_after (sh2 cmd o') /\
      interrupted (sh1 cmd o') = interrupted (sh2 cmd o')) ->
  exists f1 f2,
    main can_open can_write sh1 sg1 (48 + fuel) (boot g1 o) = Some (0, f1) /\
    main can_open can_write sh2 sg2 (48 + fuel) (boot g2 o) = Some (0, f2) /\
    trace f1 = trace f2 /\
    os f1 = os f2 /\
    (exists tr, trace f1 = Signal :: tr) /\
    launched (trace f1) = map command sweep.
Proof.
  intros Hsh.
  eexists _, _. split; [apply main_spec|]. split; [apply main_spec|].
  destruct (run_handler_blind can_open can_write sh1 sh2 sg1 sg2 Hsh sweep
              (emit Signal (boot g1 o)) (emit Signal (boot g2 o))
              eq_refl eq_refl) as (Ho & Ht).
  repeat (split; [assumption|]). split; [|apply launched_main].
  rewrite trace_run. eexists. reflexivity.
Qed.

(** ** Indices and their texts *)

(** X6.  Two indices have the same command line only if they are equal,
    and the same pointer text only if they are equal: neither the
    evaluator's argument nor the pointer file can stand for two
    checkpoints. *)
Theorem indices_are_told_apart (i j : Z) :
  (command i = command j <-> i = j) /\
  (pointer_text i = pointer_text j <-> i = j).
Proof.
  split; split; intros E.
  - now apply command_inj.
  - now subst.
  - now apply pointer_text_inj.
  - now subst.
Qed.

(** ** Where the code departs from the specification's readings *)

(** C1, as stated, fails: when the pointer file cannot be opened, the
    child of 1000 is launched although nothing has been written out in
    its iteration. *)
Lemma child_launched_without_write :
  ~ written_before_every_launch
      (trace_of (main never_open always_write quiet_shell no_handler 48 (boot tt bare))).
Proof.
  unfold written_before_every_launch.
  assert (launches_follow_flush false
            (trace_of (main never_open always_write quiet_shell no_handler 48 (boot tt bare)))
          = false) as E by (vm_compute; reflexivity).
  rewrite E. discriminate.
Qed.

(** C2, as stated, fails: with the pointer file opened and written without
    error, the child of index 1000 finds a first line that ends in a
    space and a newline, not in a newline alone. *)
Lemma spec_text_not_written :
  ~ spec_text_at_launch
      (trace_of (main always_open always_write quiet_shell no_handler 48 (boot tt bare))).
Proof.
  intros Hc.
  specialize (Hc (command 1000) (written 1000 bare) 0 1000).
  assert (disk (written 1000 bare) !! checkpoint = Some (spec_pointer_text 1000)) as E.
  { apply Hc; [|reflexivity].
    apply (nth_error_In _ 11). vm_compute. reflexivity. }
  unfold written in E. simpl in E. rewrite lookup_insert_eq in E.
  apply (pointer_text_differs 1000). exact (f_equal (default EmptyString) E).
Qed.

(** C4, as stated, fails: on a disk where an earlier run has left a
    pointer file naming 5000 and where the file cannot be opened, the
    child of 1000 is launched while the file names 5000. *)
Lemma child_disagrees_with_stale_pointer :
  ~ pointer_names_child
      (trace_of (main never_open always_write quiet_shell no_handler 48 (boot tt stale))).
Proof.
  intros Hc.
  assert (1000 = 5000) as E; [|discriminate E].
  apply (Hc (command 1000) stale 0 1000 5000); [|reflexivity|].
  - apply (nth_error_In _ 4). vm_compute. reflexivity.
  - unfold stale. simpl. apply lookup_insert_eq.
Qed.

(** C6, as stated, fails: when the pointer file cannot be opened, the
    open of the first iteration fails and is followed by the launch of
    the child of 1000 and by the remaining iterations. *)
Lemma write_failure_not_aborting :
  ~ aborts_on_write_failure
      (trace_of (main never_open always_write quiet_shell no_handler 48 (boot tt bare))).
Proof.
  intros Hc.
  assert (existsb (fun e : event unit => is_launch e || is_enter e)
            (after is_failed_open
               (trace_of (main never_open always_write quiet_shell no_handler 48
                            (boot tt bare))))
          = true) as E by (vm_compute; reflexivity).
  rewrite Hc in E; [discriminate E|]. vm_compute. reflexivity.
Qed.

(** C7, as stated, fails in its reporting part: the child of 2000 exits
    with a nonzero status, and the run ends with the same exit code, the
    same printed text and the same machine as when every child succeeds. *)
Lemma child_failure_not_reported :
  ~ failure_reported always_open always_write failing_shell no_handler tt bare.
Proof.
  intros Hc. apply Hc.
  - exists (command 2000), (written 2000 (written 1000 bare)), 256. split; [|discriminate].
    apply (nth_error_In _ 24). vm_compute. reflexivity.
  - vm_compute. reflexivity.
Qed.

(** C8, as stated, fails: the interrupt arrives while the driver waits
    for the child of 2000, and the children of 3000 and after are
    launched all the same and [main] returns 0. *)
Lemma interrupt_not_stopping :
  ~ stops_on_interrupt interrupted_shell
      (main always_open always_write interrupted_shell stop_requested 48 (boot false bare)).
Proof.
  intros Hc.
  assert (existsb is_launch
            (after (is_interrupted_launch interrupted_shell)
               (trace_of (main always_open always_write interrupted_shell stop_requested 48
                            (boot false bare))))
          = true) as E by (vm_compute; reflexivity).
  destruct Hc as [E' _]; [vm_compute; reflexivity|].
  rewrite E' in E. discriminate E.
Qed.

(** The same holds of an interrupt that does reach the handler: it
    arrives when the wait for the child of 2000 is over, the handler
    records the stop request, and the sweep goes on to the end. *)
Lemma interrupt_after_wait_not_stopping :
  globals <$> (snd <$> main always_open always_write interrupted_after_shell
                         stop_requested 48 (boot false bare)) = Some true /\
  ~ stops_on_interrupt interrupted_after_shell
      (main always_open always_write interrupted_after_shell stop_requested 48
         (boot false bare)).
Proof.
  split; [vm_compute; reflexivity|].
  intros Hc.
  assert (existsb is_launch
            (after (is_interrupted_launch interrupted_after_shell)
               (trace_of (main always_open always_write interrupted_after_shell
                            stop_requested 48 (boot false bare))))
          = true) as E by (vm_compute; reflexivity).
  destruct Hc as [E' _]; [vm_compute; reflexivity|].
  rewrite E' in E. discriminate E.
Qed.

(** C10, as stated, fails in its middle part: when the pointer file cannot
    be opened, 47 iterations are entered and none writes anything out. *)
Lemma iterations_without_rewrite :
  ~ rewritten_every_iteration
      (trace_of (main never_open always_write quiet_shell no_handler 48 (boot tt bare))).
Proof.
  unfold rewritten_every_iteration. intros Hc.
  apply (f_equal (@length string)) in Hc.
  vm_compute in Hc. discriminate Hc.
Qed.

(** ** The hypotheses are met *)

(** C1, as amended, at the first iteration on a bare machine where the
    open succeeds and the disk takes the text. *)
Lemma pointer_written_then_child_then_next_witness :
  (idle (boot tt bare) /\ 1000 <= 47000 /\
   always_open (os (boot tt bare)) checkpoint = true /\
   always_write (truncated (os (boot tt bare))) checkpoint (pointer_text 1000) = true) /\
  exists s' : state unit unit,
    for_loop always_open always_write quiet_shell no_handler 48 1000 (boot tt bare)
    = for_loop always_open always_write quiet_shell no_handler 47 (1000 + 1000) s' /\
    trace s' = trace (boot tt bare)
               ++ [Enter 1000; Open checkpoint true]
               ++ writes 1000
               ++ [Flush checkpoint (pointer_text 1000); Close true;
                   Launch (command 1000) (written 1000 (os (boot tt bare)))
                     (status (quiet_shell (command 1000) (written 1000 (os (boot tt bare)))))]
               ++ (if interrupted (quiet_shell (command 1000) (written 1000 (os (boot tt bare))))
                   then [Sigint] else [])
               ++ [Cout (to_string 1000); Cout newline] /\
    disk (written 1000 (os (boot tt bare))) !! checkpoint = Some (pointer_text 1000) /\
    os s' = os_after (quiet_shell (command 1000) (written 1000 (os (boot tt bare)))) /\
    failed (file s') = false /\
    idle s'.
Proof.
  assert (idle (boot tt (bare : OS unit))) as Hs by (split; reflexivity).
  assert (1000 <= 47000) as Hi by lia.
  split; [auto|].
  apply (pointer_written_then_child_then_next always_open always_write quiet_shell
           no_handler 47%nat 1000 (boot tt bare) Hs Hi); reflexivity.
Defined.

(** C6, as amended, at the first iteration on a machine where the open
    fails. *)
Lemma failed_open_still_launches_witness :
  (idle (boot tt bare) /\ 1000 <= 47000 /\ never_open (os (boot tt bare)) checkpoint = false) /\
  exists s' : state unit unit,
    for_loop never_open always_write quiet_shell no_handler 48 1000 (boot tt bare)
    = for_loop never_open always_write quiet_shell no_handler 47 (1000 + 1000) s' /\
    trace s' = trace (boot tt bare)
               ++ [Enter 1000; Open checkpoint false; Close false;
                   Launch (command 1000) (os (boot tt bare))
                     (status (quiet_shell (command 1000) (os (boot tt bare))))]
               ++ (if interrupted (quiet_shell (command 1000) (os (boot tt bare)))
                   then [Sigint] else [])
               ++ [Cout (to_string 1000); Cout newline] /\
    os s' = os_after (quiet_shell (command 1000) (os (boot tt bare))) /\
    idle s'.
Proof.
  assert (idle (boot tt bare)) as Hi by (split; reflexivity).
  assert (1000 <= 47000) as Hle by lia.
  split; [auto|].
  apply (failed_open_still_launches never_open always_write quiet_shell no_handler
           47%nat 1000 (boot tt bare) Hi Hle).
  reflexivity.
Defined.

(** C7, as amended, for the evaluator that fails on 2000 and the one that
    always succeeds. *)
Lemma child_status_is_dropped_witness :
  (forall (cmd : string) (o' : OS unit),
      os_after (failing_shell cmd o') = os_after (quiet_shell cmd o') /\
      interrupted (failing_shell cmd o') = interrupted (quiet_shell cmd o')) /\
  exists f1 f2 : state unit unit,
    main always_open always_write failing_shell no_handler (48 + 0) (boot tt bare)
    = Some (0, f1) /\
    main always_open always_write quiet_shell no_handler (48 + 0) (boot tt bare)
    = Some (0, f2) /\
    map forget_status (trace f1) = map forget_status (trace f2) /\
    os f1 = os f2.
Proof.
  assert (forall (cmd : string) (o' : OS unit),
      os_after (failing_shell cmd o') = os_after (quiet_shell cmd o') /\
      interrupted (failing_shell cmd o') = interrupted (quiet_shell cmd o')) as Hsh.
  { intros cmd o'. unfold failing_shell, quiet_shell.
    destruct (String.eqb cmd (command 2000)); split; reflexivity. }
  split; [exact Hsh|].
  destruct (child_status_is_dropped always_open always_write failing_shell quiet_shell
              no_handler 0%nat tt bare Hsh)
    as (_ & f1 & f2 & H1 & H2 & Ht & Ho & _).
  exists f1, f2. auto.
Defined.

(** C8, as amended: the run in which the interrupt arrives while the
    driver waits for the child of 2000, with the handler that records a
    stop request, against the run with no interrupt and no handler. *)
Lemma handler_never_consulted_witness :
  (forall (cmd : string) (o' : OS unit),
      status (interrupted_shell cmd o') = status (quiet_shell cmd o') /\
      os_after (interrupted_shell cmd o') = os_after (quiet_shell cmd o') /\
      interrupted (interrupted_shell cmd o') = interrupted (quiet_shell cmd o')) /\
  exists (f1 : state unit bool) (f2 : state unit unit),
    main always_open always_write interrupted_shell stop_requested (48 + 0) (boot false bare)
    = Some (0, f1) /\
    main always_open always_write quiet_shell no_handler (48 + 0) (boot tt bare)
    = Some (0, f2) /\
    trace f1 = trace f2 /\
    os f1 = os f2 /\
    launched (trace f1) = map command sweep.
Proof.
  assert (forall (cmd : string) (o' : OS unit),
      status (interrupted_shell cmd o') = status (quiet_shell cmd o') /\
      os_after (interrupted_shell cmd o') = os_after (quiet_shell cmd o') /\
      interrupted (interrupted_shell cmd o') = interrupted (quiet_shell cmd o')) as Hsh.
  { intros cmd o'. repeat split; reflexivity. }
  split; [exact Hsh|].
  destruct (handler_never_consulted always_open always_write interrupted_shell quiet_shell
              stop_requested no_handler 0%nat false tt bare Hsh)
    as (f1 & f2 & H1 & H2 & Ht & Ho & _ & Hl).
  exists f1, f2. auto.
Defined.

(** C10, as amended, for a second file on the disk, which the evaluator
    leaves alone. *)
Lemma driver_writes_only_checkpoint_witness :
  ("notes.txt" <> checkpoint /\
   forall (cmd : string) (o' : OS unit),
     disk (os_after (quiet_shell cmd o')) !! "notes.txt" = disk o' !! "notes.txt") /\
  exists final : state unit unit,
    main always_open always_write quiet_shell no_handler (48 + 0)
      (boot tt (mkOS (<["notes.txt" := "keep"]> ∅) tt)) = Some (0, final) /\
    Forall (fun q => q = checkpoint) (touched (trace final)) /\
    disk (os final) !! "notes.txt" = Some "keep".
Proof.
  assert ("notes.txt" <> checkpoint) as Hp by discriminate.
  assert (forall (cmd : string) (o' : OS unit),
     disk (os_after (quiet_shell cmd o')) !! "notes.txt" = disk o' !! "notes.txt") as Hf
    by reflexivity.
  split; [auto|].
  destruct (driver_writes_only_checkpoint always_open always_write quiet_shell no_handler
              0%nat tt (mkOS (<["notes.txt" := "keep"]> ∅) tt) "notes.txt" Hp Hf)
    as (final & bs & Hm & _ & _ & Ht & Hd).
  exists final. split; [exact Hm|]. split; [exact Ht|].
  rewrite Hd. reflexivity.
Defined.

(** ** The further properties at concrete machines *)

(** X4 on a bare machine with an evaluator that does nothing. *)
Lemma pointer_file_after_sweep_witness :
  ((forall o' : OS unit, always_open o' checkpoint = true) /\
   (forall (o' : OS unit) (text : string), always_write o' checkpoint text = true) /\
   (forall (cmd : string) (o' : OS unit),
       disk (os_after (quiet_shell cmd o')) !! checkpoint = disk o' !! checkpoint)) /\
  exists final : state unit unit,
    main always_open always_write quiet_shell no_handler (48 + 0) (boot tt bare)
    = Some (0, final) /\
    disk (os final) !! checkpoint = Some (pointer_text 47000).
Proof.
  split; [repeat split; reflexivity|].
  apply (pointer_file_after_sweep always_open always_write quiet_shell no_handler
           0%nat tt bare); reflexivity.
Defined.

(** X5 on a machine whose pointer file, left by an earlier run, cannot be
    opened. *)
Lemma unopenable_pointer_is_never_updated_witness :
  ((forall o' : OS unit, never_open o' checkpoint = false) /\
   (forall (cmd : string) (o' : OS unit),
       disk (os_after (quiet_shell cmd o')) !! checkpoint = disk o' !! checkpoint)) /\
  exists final : state unit unit,
    main never_open always_write quiet_shell no_handler (48 + 0)
      (boot tt (mkOS (<[checkpoint := pointer_text 5000]> ∅) tt)) = Some (0, final) /\
    launched (trace final) = map command sweep /\
    disk (os final) !! checkpoint = Some (pointer_text 5000).
Proof.
  split; [split; reflexivity|].
  destruct (unopenable_pointer_is_never_updated never_open always_write quiet_shell
              no_handler 0%nat tt (mkOS (<[checkpoint := pointer_text 5000]> ∅) tt)
              (fun _ => eq_refl) (fun _ _ => eq_refl))
    as (final & bs & Hm & Ht & _ & Hd).
  exists final. split; [exact Hm|]. split.
  - rewrite main_spec in Hm. injection Hm as <-. apply launched_main.
  - rewrite Hd. apply lookup_insert_eq.
Defined.

(** X7 at the first iteration on a machine whose disk is full. *)
Lemma failed_write_still_launches_witness :
  (idle (boot tt bare) /\ 1000 <= 47000 /\
   always_open (os (boot tt bare)) checkpoint = true /\
   never_write (truncated (os (boot tt bare))) checkpoint (pointer_text 1000) = false) /\
  exists s' : state unit unit,
    for_loop always_open never_write quiet_shell no_handler 48 1000 (boot tt bare)
    = for_loop always_open never_write quiet_shell no_handler 47 (1000 + 1000) s' /\
    In (Launch (command 1000) (truncated bare) 0) (trace s') /\
    disk (truncated bare) !! checkpoint = Some EmptyString /\
    failed (file s') = true.
Proof.
  assert (idle (boot tt (bare : OS unit))) as Hs by (split; reflexivity).
  assert (1000 <= 47000) as Hi by lia.
  split; [auto|].
  destruct (failed_write_still_launches always_open never_write quiet_shell no_handler
              47%nat 1000 (boot tt bare) Hs Hi eq_refl eq_refl)
    as (s' & Hl & Ht & Hd & _ & Hf & _).
  exists s'. split; [exact Hl|]. split; [|split; [exact Hd|exact Hf]].
  rewrite Ht. simpl. auto 12.
Defined.
